(** * Splitwise batch upload: shares, rounding correction and commit gate

    A shallow embedding of [batch_upload_process] (src/main.py) and of the
    two closures it defines, [getShareOwed] and [AssignRoundingDiff].

    Numbers.  Spreadsheet amounts are modelled as exact rationals ([Q]);
    [round(x, 2)] is rounding to the nearest hundredth with ties to the even
    hundredth.  Binary floating-point round-off is outside this model.

    Frames.  One row of [expenses_df] is a record for the fixed columns plus
    two finite maps keyed by column label: the member columns of the sheet
    (labels starting with an underscore, no entry for an empty cell) and the
    columns the program adds ([<name>_share_paid], [<name>_share_owed]).
    The labels the program adds are taken not to clash with labels of the
    sheet.  Frame operations that work column by column are written row by
    row, each row being independent of the others.

    Failure.  Python exceptions are values of [exn], carried by [result]. *)

From Stdlib Require Import ZArith QArith Qround Qabs Lqa Lia Ascii.
From Stdlib Require DecimalString DecimalNat DecimalZ.
From stdpp Require Import base option list strings gmap fin_maps.

Local Open Scope stdpp_scope.
Local Open Scope Q_scope.

(** ** Exceptions *)

Inductive exn : Type :=
  | KeyError (label : string)
  | IndexError
  | ZeroDivisionError.

Inductive result (A : Type) : Type :=
  | Ok (a : A)
  | Raise (e : exn).
Arguments Ok {A} a.
Arguments Raise {A} e.

Definition bind {A B : Type} (r : result A) (k : A → result B) : result B :=
  match r with
  | Ok a => k a
  | Raise e => Raise e
  end.

Notation "x ←! r ; k" := (bind r (λ x, k))
  (at level 20, r at level 100, k at level 200, only parsing, right associativity).

Definition raised {A : Type} (r : result A) : Prop := ∃ e, r = Raise e.

(** ** Decimal arithmetic *)

Module Money.

Definition Qltb (x y : Q) : bool :=
  match Qcompare x y with Lt => true | _ => false end.

(** Nearest integer, ties to even. *)
Definition round_half_even (x : Q) : Z :=
  let f := Qfloor x in
  match Qcompare (x - inject_Z f) (1 # 2) with
  | Lt => f
  | Gt => (f + 1)%Z
  | Eq => if Z.even f then f else (f + 1)%Z
  end.

(** [round(x, 2)] *)
Definition round2 (x : Q) : Q :=
  inject_Z (round_half_even (x * 100)) / 100.

(** [x / n] for a Python [len] in the denominator. *)
Definition div_len (x : Q) (n : nat) : result Q :=
  match n with
  | O => Raise ZeroDivisionError
  | S _ => Ok (x / inject_Z (Z.of_nat n))
  end.

Definition Qsum (l : list Q) : Q := foldr Qplus 0 l.

End Money.
Import Money.

(** ** Strings *)

Module Label.

(** [s[1:]] *)
Definition drop1 (s : string) : string :=
  match s with
  | EmptyString => EmptyString
  | String _ t => t
  end.

(** Columns selected by the regular expression [^_]. *)
Definition is_member_col (s : string) : bool :=
  match s with
  | String c _ => bool_decide (c = "_"%char)
  | EmptyString => false
  end.

Definition lower_ascii (c : ascii) : ascii :=
  let n := Ascii.nat_of_ascii c in
  if ((65 <=? n) && (n <=? 90))%nat then Ascii.ascii_of_nat (n + 32) else c.

(** [str.lower] on the ASCII range. *)
Fixpoint lower (s : string) : string :=
  match s with
  | EmptyString => EmptyString
  | String c t => String (lower_ascii c) (lower t)
  end.

Definition share_paid_col (col : string) : string := drop1 col +:+ "_share_paid".
Definition share_owed_col (col : string) : string := drop1 col +:+ "_share_owed".

End Label.
Import Label.

(** ** The two sheets *)

(** A row of the [Members] sheet: columns [Name] and [ID]. *)
Module Members.
Record row : Type := { Name : string; ID : Z }.
End Members.

(** An entry of [members_in_cols]. *)
Record member : Type := { name : string; id : Z }.

(** The Splitwise group fetched for the upload; [members] holds user ids. *)
Record group : Type := { group_id : Z; members : list Z }.

(** A value of the [All equal] column after line 152: the replacement maps
    ["y"], ["n"] and [""] to booleans and leaves every other string alone. *)
Inductive flag : Type :=
  | PyBool (b : bool)
  | PyStr (s : string).

Definition truthy (v : flag) : bool :=
  match v with
  | PyBool b => b
  | PyStr s => negb (bool_decide (s = ""))
  end.

(** [astype(str)] on a text cell; an empty cell prints as ["nan"]. *)
Definition astype_str (c : option string) : string :=
  match c with
  | Some s => s
  | None => "nan"
  end.

Definition read_all_equal (c : option string) : flag :=
  let s := lower (astype_str c) in
  if decide (s = "y") then PyBool true
  else if decide (s = "n") then PyBool false
  else if decide (s = "") then PyBool false
  else PyStr s.

(** A row of the [Expenses] sheet as [read_excel] delivers it. *)
Module Sheet.
Record row : Type := {
  ID : Z;
  Description : string;
  Date : string;
  Amount : Q;
  Currency : string;
  Paid_by : string;
  All_equal : option string;
  Split_type : option string;
  cells : gmap string Q
}.
End Sheet.

(** A row of [expenses_df] once the program has added its columns. *)
Record expense_row : Type := {
  ID : Z;
  Description : string;
  Date : string;
  Amount : Q;
  Currency : string;
  Paid_by : string;
  All_equal : flag;
  Split_type : option string;
  cells : gmap string Q;
  Total_Shares : Q;
  Payer_ID : option Z;
  computed : gmap string Q
}.

Definition set_computed (row : expense_row) (m : gmap string Q) : expense_row :=
  {| ID := ID row; Description := Description row; Date := Date row;
     Amount := Amount row; Currency := Currency row; Paid_by := Paid_by row;
     All_equal := All_equal row; Split_type := Split_type row;
     cells := cells row; Total_Shares := Total_Shares row;
     Payer_ID := Payer_ID row; computed := m |}.

(** [row[label]] on a computed column. *)
Definition get (row : expense_row) (label : string) : result Q :=
  match computed row !! label with
  | Some v => Ok v
  | None => Raise (KeyError label)
  end.

(** [random.choice(seq)] with [rnd] the draw of the generator. *)
Definition choice {A : Type} (rnd : nat) (seq : list A) : result A :=
  match seq !! (rnd mod length seq)%nat with
  | Some x => Ok x
  | None => Raise IndexError
  end.

Fixpoint traverse {A B : Type} (f : A → result B) (l : list A) : result (list B) :=
  match l with
  | [] => Ok []
  | x :: xs => y ←! f x; ys ←! traverse f xs; Ok (y :: ys)
  end.

Fixpoint foldR {A B : Type} (f : B → A → result B) (b : B) (l : list A) : result B :=
  match l with
  | [] => Ok b
  | x :: xs => b' ←! f b x; foldR f b' xs
  end.

(** ** Reading the sheets (lines 149-171) *)

Definition cols_of (columns : list string) : list string :=
  filter (λ c, is_member_col c = true) columns.

(** Lines 150 and 152 on one row. *)
Definition read_row (cols_member_names : list string) (s : Sheet.row) : expense_row :=
  {| ID := Sheet.ID s; Description := Sheet.Description s; Date := Sheet.Date s;
     Amount := Sheet.Amount s; Currency := Sheet.Currency s;
     Paid_by := Sheet.Paid_by s;
     All_equal := read_all_equal (Sheet.All_equal s);
     Split_type := Sheet.Split_type s;
     cells := Sheet.cells s;
     Total_Shares := Qsum (omap (λ c, Sheet.cells s !! c) cols_member_names);
     Payer_ID := None;
     computed := ∅ |}.

(** Lines 156-163 for one column. *)
Definition member_of_col (members_df : list Members.row) (member_name : string)
  : result member :=
  let member_info := filter (λ r, Members.Name r = drop1 member_name) members_df in
  match member_info with
  | r :: _ => Ok {| name := drop1 member_name; id := Members.ID r |}
  | [] => Raise IndexError
  end.

Definition resolve_members (members_df : list Members.row) (cols_member_names : list string)
  : result (list member) :=
  traverse (member_of_col members_df) cols_member_names.

Definition set_Payer_ID (row : expense_row) (p : option Z) : expense_row :=
  {| ID := ID row; Description := Description row; Date := Date row;
     Amount := Amount row; Currency := Currency row; Paid_by := Paid_by row;
     All_equal := All_equal row; Split_type := Split_type row;
     cells := cells row; Total_Shares := Total_Shares row;
     Payer_ID := p; computed := computed row |}.

(** The left merge on [Paid by] = [Name] (lines 166-171): one output row per
    matching member row, and one with no payer id when nothing matches. *)
Definition merge_payer (members_df : list Members.row) (row : expense_row) : list expense_row :=
  match filter (λ r, Members.Name r = Paid_by row) members_df with
  | [] => [set_Payer_ID row None]
  | ms => (λ r, set_Payer_ID row (Some (Members.ID r))) <$> ms
  end.

(** ** The closures of [batch_upload_process] *)

Section Closures.

(** What the closures capture from the enclosing call. *)
Variable the_group : group.
Variable members_in_cols : list member.
Variable cols_member_names : list string.

(** Lines 174-189. *)
Definition getShareOwed (row : expense_row) (member_name : string) : result Q :=
  match cells row !! member_name with
  | None => Ok 0
  | Some member_cell_value =>
      if truthy (All_equal row) then
        q ←! div_len (Amount row) (length (members the_group));
        Ok (round2 q)
      else if decide (Split_type row = Some "share") then
        Ok (round2 (member_cell_value / 100 * Amount row))
      else if decide (Split_type row = Some "amount") then
        Ok member_cell_value
      else if decide (Split_type row = Some "equal") then
        let members_for_division :=
          name <$> filter (λ m, is_Some (cells row !! ("_" +:+ name m))) members_in_cols in
        q ←! div_len (Amount row) (length members_for_division);
        Ok (round2 q)
      else Ok 0
  end.

(** [np.where(Paid by == name, Amount, 0)] on one row (line 193). *)
Definition share_paid (row : expense_row) (col_name : string) : Q :=
  if decide (Paid_by row = drop1 col_name) then Amount row else 0.

(** The body of the loop of lines 191-196 on one row. *)
Definition add_member_columns (row : expense_row) (col_name : string)
  : result expense_row :=
  let with_paid := <[share_paid_col col_name := share_paid row col_name]> (computed row) in
  owed ←! getShareOwed row ("_" +:+ drop1 col_name);
  Ok (set_computed row (<[share_owed_col col_name := owed]> with_paid)).

Definition add_shares (row : expense_row) : result expense_row :=
  foldR add_member_columns row cols_member_names.

(** The list comprehension of line 203. *)
Fixpoint share_owed_columns (row : expense_row) (cols : list string)
  : result (list string) :=
  match cols with
  | [] => Ok []
  | col_name :: rest =>
      v ←! get row (share_owed_col col_name);
      tl ←! share_owed_columns row rest;
      Ok (if Qltb 0 v then share_owed_col col_name :: tl else tl)
  end.

(** Lines 199-210; [rnd] is what the random generator delivers if asked. *)
Definition AssignRoundingDiff (rnd : nat) (row : expense_row) : result expense_row :=
  columns ←! share_owed_columns row cols_member_names;
  values ←! traverse (get row) columns;
  let sum_share_owed := Qsum values in
  let diff := sum_share_owed - Amount row in
  if Qltb 0 (Qabs diff) && Qltb (Qabs diff) (2 # 100) then
    let diff_round := round2 diff in
    random_member ←! choice rnd columns;
    old ←! get row random_member;
    Ok (set_computed row (<[random_member := old + - diff_round]> (computed row)))
  else Ok row.

End Closures.

(** ** The request handler (lines 133-239) *)


(** [DataFrame.apply(f, axis = 1)], the row at position [i] drawing [draws i]. *)
Fixpoint apply_rows (f : nat → expense_row → result expense_row)
    (draws : nat → nat) (i : nat) (rows : list expense_row) : result (list expense_row) :=
  match rows with
  | [] => Ok []
  | row :: rest =>
      row' ←! f (draws i) row;
      rest' ←! apply_rows f draws (S i) rest;
      Ok (row' :: rest')
  end.

Section Upload.

(** [describe_errors] lives in [services.helpers.expense_utils]; the handler
    only uses the triple it returns. *)
Context {Errors Messages : Type}.
Variable describe_errors :
  list expense_row → list Members.row → group → Errors * Messages * Z.



(** Lines 149-212: the frame handed to [describe_errors]. *)
Definition compute_frame (draws : nat → nat) (the_group : group)
    (columns : list string) (sheet : list Sheet.row) (members_df : list Members.row)
  : result (list member * list expense_row) :=
  let cols_member_names := cols_of columns in
  let expenses_df := read_row cols_member_names <$> sheet in
  members_in_cols ←! resolve_members members_df cols_member_names;
  let expenses_df := expenses_df ≫= merge_payer members_df in
  expenses_df ←! traverse (add_shares the_group members_in_cols cols_member_names) expenses_df;
  expenses_df ←! apply_rows (AssignRoundingDiff cols_member_names) draws 0 expenses_df;
  Ok (members_in_cols, expenses_df).



End Upload.

(** ** What the claims speak about *)

(** The share owed recorded for a member column, and the total over the
    columns of the sheet. *)
Definition owed (row : expense_row) (col_name : string) : Q :=
  default 0 (computed row !! share_owed_col col_name).

Definition paid (row : expense_row) (col_name : string) : Q :=
  default 0 (computed row !! share_paid_col col_name).

Definition owed_total (cols_member_names : list string) (row : expense_row) : Q :=
  Qsum (owed row <$> cols_member_names).

(** The members counted by the "equal" policy: those with a value in their
    cell on this row. *)
Definition listed_members (members_in_cols : list member) (row : expense_row) : list member :=
  filter (λ m, is_Some (cells row !! ("_" +:+ name m))) members_in_cols.

(** Every computed share-owed column is there. *)
Definition has_owed_columns (cols_member_names : list string) (row : expense_row) : Prop :=
  ∀ c, c ∈ cols_member_names → is_Some (computed row !! share_owed_col c).

(** What [AssignRoundingDiff] looks at: the member columns whose share owed is
    positive, the difference between their sum and the Amount, and the test
    of line 206. *)
Definition positive_cols (cols_member_names : list string) (row : expense_row) : list string :=
  filter (λ c, Qltb 0 (owed row c) = true) cols_member_names.

Definition rounding_diff (cols_member_names : list string) (row : expense_row) : Q :=
  Qsum (owed row <$> positive_cols cols_member_names row) - Amount row.

Definition within_tolerance (diff : Q) : bool :=
  Qltb 0 (Qabs diff) && Qltb (Qabs diff) (2 # 100).

(** The row with [w] subtracted from the share owed of column [c]. *)
Definition subtract_from (row : expense_row) (c : string) (w : Q) : expense_row :=
  set_computed row (<[share_owed_col c := owed row c + - w]> (computed row)).

(** Column labels as [read_excel] produces them for the member columns:
    pairwise distinct, each starting with an underscore. *)
Definition member_columns (cols_member_names : list string) : Prop :=
  NoDup cols_member_names ∧ Forall (λ c, is_member_col c = true) cols_member_names.

Definition known_split_type (row : expense_row) : bool :=
  bool_decide (Split_type row = Some "share")
  || bool_decide (Split_type row = Some "amount")
  || bool_decide (Split_type row = Some "equal").



(** ** Sample uploads *)

Module Sample.

Definition the_group : group := {| group_id := 7; members := [11; 12; 13]%Z |}.

Definition members_df : list Members.row :=
  [ {| Members.Name := "Alice"; Members.ID := 11 |};
    {| Members.Name := "Bob"; Members.ID := 12 |};
    {| Members.Name := "Carol"; Members.ID := 13 |} ].

(** Two rows of the Members sheet carry the same name. *)
Definition twins_df : list Members.row :=
  [ {| Members.Name := "Alice"; Members.ID := 11 |};
    {| Members.Name := "Alice"; Members.ID := 12 |} ].

Definition columns : list string :=
  [ "ID"; "Description"; "Date"; "Amount"; "Currency"; "Paid by"; "All equal";
    "Split type"; "_Alice"; "_Bob"; "_Carol" ].

Definition cols : list string := [ "_Alice"; "_Bob"; "_Carol" ].

(** The sheet that goes with [twins_df]. *)
Definition twin_columns : list string :=
  [ "ID"; "Description"; "Date"; "Amount"; "Currency"; "Paid by"; "All equal";
    "Split type"; "_Alice" ].

Definition members_in_cols : list member :=
  [ {| name := "Alice"; id := 11 |}; {| name := "Bob"; id := 12 |};
    {| name := "Carol"; id := 13 |} ].

Definition line (amount : Q) (payer : string) (all_equal : string)
    (split : string) (member_cells : list (string * Q)) : Sheet.row :=
  {| Sheet.ID := 1; Sheet.Description := "dinner"; Sheet.Date := "2024-01-31";
     Sheet.Amount := amount; Sheet.Currency := "EUR"; Sheet.Paid_by := payer;
     Sheet.All_equal := Some all_equal;
     Sheet.Split_type := if decide (split = "") then None else Some split;
     Sheet.cells := list_to_map member_cells |}.


(** An unrecognised split type. *)
Definition bogus : Sheet.row :=
  line 40 "Alice" "n" "bogus" [("_Alice", 1); ("_Bob", 1)].

(** Split all-equal with only one member cell filled in. *)
Definition blank_cells : Sheet.row :=
  line 90 "Alice" "y" "" [("_Alice", 1)].

(** 100.00 split among the three listed members. *)
Definition thirds : Sheet.row :=
  line 100 "Bob" "n" "equal" [("_Alice", 1); ("_Bob", 1); ("_Carol", 1)].

(** Fixed amounts, one of them negative. *)
Definition refund : Sheet.row :=
  line 10 "Alice" "n" "amount" [("_Alice", 15.01); ("_Bob", -5)].


(** One cent and no recognised split type. *)
Definition one_cent : Sheet.row :=
  line 0.01 "Alice" "n" "bogus" [("_Alice", 1)].

(** The payer is not one of the member columns. *)
Definition stranger : Sheet.row :=
  line 30 "Zoe" "n" "equal" [("_Alice", 1); ("_Bob", 1); ("_Carol", 1)].

(** The frame row of a sheet row before the shares are added: the first
    row the merge with [members_df] produces for it. *)
Definition frame_row (s : Sheet.row) : expense_row :=
  let row := read_row cols s in
  hd row (merge_payer members_df row).

(** The shares of a sheet row, before the rounding correction. *)
Definition shares (s : Sheet.row) : result expense_row :=
  add_shares the_group members_in_cols cols (frame_row s).

(** The row of a sheet row as it enters [AssignRoundingDiff]. *)
Definition with_shares (s : Sheet.row) : expense_row :=
  match shares s with
  | Ok row => row
  | Raise _ => frame_row s
  end.


End Sample.

(** ** Whole cents *)


(** ** Pushing a stored upload (lines 241-300) *)

(** The stored records [push_expenses] reads, with the attributes it uses. *)
Module Db.
Record expense_member : Type := {
  sw_id : Z;
  share_paid : Q;
  share_owed : Q
}.
Record expense : Type := {
  amount : Q;
  description : string;
  date : string;
  currency : string;
  all_equal : bool;
  payer_id : Z;
  expense_members : list expense_member;
  within_upload_id : Z
}.
End Db.

(** The objects of the Splitwise client the handler fills in. *)
Module Sw.
Record ExpenseUser : Type := {
  id : Z;
  paid_share : Q;
  owed_share : Q
}.
Record Expense : Type := {
  cost : Q;
  description : string;
  group_id : Z;
  creation_method : string;
  date : string;
  currency_code : string;
  split_equally : bool;
  users : list ExpenseUser
}.
End Sw.

(** [str(n)] for an integer. *)
Definition str_Z (z : Z) : string :=
  DecimalString.NilZero.string_of_int (Z.to_int z).

(** [d[k] = v] on a dictionary kept in insertion order. *)
Fixpoint dict_set {V : Type} (k : Z) (v : V) (d : list (Z * V)) : list (Z * V) :=
  match d with
  | [] => [(k, v)]
  | (k', v') :: rest =>
      if decide (k' = k) then (k', v) :: rest else (k', v') :: dict_set k v rest
  end.

(** An entry of [expenses_failed]. *)
Record failure : Type := { failed_id : string; failed_errors : list string }.

Section Push.

(** The remote service: its state, and [createExpense], which answers with
    the new expense's id or with the list under the key [base] of its
    errors. *)
Variable service : Type.
Variable createExpense : service → Sw.Expense → service * (Z + list string).

(** Lines 253-270 for one stored expense. *)
Definition expense_to_push (current_user_id group_sw_id : Z) (e : Db.expense) : Sw.Expense :=
  let split := bool_decide (Db.all_equal e = true)
               && bool_decide (Db.payer_id e = current_user_id) in
  {| Sw.cost := Db.amount e;
     Sw.description := Db.description e;
     Sw.group_id := group_sw_id;
     Sw.creation_method := "Splitwise tools";
     Sw.date := Db.date e;
     Sw.currency_code := Db.currency e;
     Sw.split_equally := split;
     Sw.users :=
       if split then []
       else (λ m, {| Sw.id := Db.sw_id m;
                     Sw.paid_share := Db.share_paid m;
                     Sw.owed_share := Db.share_owed m |}) <$> Db.expense_members e |}.

(** The dictionary [expenses_to_push] after the loop of lines 252-272. *)
Definition expenses_to_push (current_user_id group_sw_id : Z) (expenses : list Db.expense)
  : list (Z * Sw.Expense) :=
  foldl (λ d e, dict_set (Db.within_upload_id e)
                   (expense_to_push current_user_id group_sw_id e) d)
    [] expenses.

(** The loop of lines 276-288. *)
Fixpoint upload_all (s : service) (items : list (Z * Sw.Expense)) : service * list failure :=
  match items with
  | [] => (s, [])
  | (expense_id, expense) :: rest =>
      let '(s1, answer) := createExpense s expense in
      let '(s2, expenses_failed) := upload_all s1 rest in
      match answer with
      | inl _ => (s2, expenses_failed)
      | inr errors_list =>
          (s2, {| failed_id := str_Z expense_id; failed_errors := errors_list |}
                 :: expenses_failed)
      end
  end.

Definition push_expenses (s : service) (current_user_id group_sw_id : Z)
    (expenses : list Db.expense) : service * list failure :=
  upload_all s (expenses_to_push current_user_id group_sw_id expenses).

End Push.

(** ** The template of a group (lines 343-400) *)

(** A member of the group as the Splitwise client returns it. *)
Record sw_member : Type := {
  first_name : string;
  last_name : option string;
  member_id : Z
}.

(** White space in the ASCII range, as [str.strip] sees it. *)
Definition is_space (c : ascii) : bool :=
  let n := Ascii.nat_of_ascii c in
  (((9 <=? n) && (n <=? 13)) || ((28 <=? n) && (n <=? 32)))%nat.

Fixpoint lstrip (s : string) : string :=
  match s with
  | EmptyString => EmptyString
  | String c t => if is_space c then lstrip t else s
  end.

Fixpoint rstrip (s : string) : string :=
  match s with
  | EmptyString => EmptyString
  | String c t =>
      match rstrip t with
      | EmptyString => if is_space c then EmptyString else String c EmptyString
      | t' => String c t'
      end
  end.

(** [s.strip()] *)
Definition strip (s : string) : string := rstrip (lstrip s).

(** [str(n)] for a count. *)
Definition str (n : nat) : string :=
  DecimalString.NilEmpty.string_of_uint (Nat.to_uint n).

(** [l.count(x)] *)
Definition count (x : string) (l : list string) : nat :=
  length (filter (λ y, y = x) l).

(** Lines 355-359. *)
Definition member_full_name (m : sw_member) : string :=
  let member_last_name := default "" (last_name m) in
  strip (first_name m +:+ " " +:+ member_last_name).

(** Lines 361-368. *)
Definition member_names_enum (member_names : list string) : list string :=
  imap (λ i name,
          if decide (1 < count name member_names)%nat
          then name +:+ " " +:+ str (count name (take (S i) member_names))
          else name)
       member_names.

Definition expense_headers_fixed : list string :=
  ["ID"; "Description"; "Date"; "Amount"; "Currency"; "Paid by"; "All equal"; "Split type"].

(** The header row of the Expenses sheet (line 371) and the rows written to
    the Members sheet (lines 391-393). *)
Definition template_headers (group_members : list sw_member) : list string :=
  expense_headers_fixed
    ++ ((λ name, "_" +:+ name) <$> member_names_enum (member_full_name <$> group_members)).

Definition template_members (group_members : list sw_member) : list Members.row :=
  (λ p, {| Members.Name := p.2; Members.ID := member_id p.1 |})
    <$> zip group_members (member_names_enum (member_full_name <$> group_members)).

(** A stored upload and a group to try the handlers on. *)
Module Demo.

Definition dinner : Db.expense :=
  {| Db.amount := 50; Db.description := "dinner"; Db.date := "2024-01-31";
     Db.currency := "EUR"; Db.all_equal := false; Db.payer_id := 11;
     Db.expense_members :=
       [ {| Db.sw_id := 11; Db.share_paid := 50; Db.share_owed := 30 |};
         {| Db.sw_id := 12; Db.share_paid := 0; Db.share_owed := 20 |} ];
     Db.within_upload_id := 1 |}.

Definition taxi : Db.expense :=
  {| Db.amount := 90; Db.description := "taxi"; Db.date := "2024-02-01";
     Db.currency := "EUR"; Db.all_equal := true; Db.payer_id := 11;
     Db.expense_members := [];
     Db.within_upload_id := 2 |}.

(** A second row of the sheet that carries the ID of [dinner]. *)
Definition lunch : Db.expense :=
  {| Db.amount := 12; Db.description := "lunch"; Db.date := "2024-02-02";
     Db.currency := "EUR"; Db.all_equal := true; Db.payer_id := 12;
     Db.expense_members := [];
     Db.within_upload_id := 1 |}.

(** A service that counts its calls and rejects costs of 90 and more. *)
Definition strict_service (calls : nat) (e : Sw.Expense) : nat * (Z + list string) :=
  (S calls,
   if Qle_bool 90 (Sw.cost e) then inr ["Cost is too high"] else inl (Z.of_nat calls)).

Definition friends : list sw_member :=
  [ {| first_name := "Javier"; last_name := Some "Lopez"; member_id := 11 |};
    {| first_name := "Ana"; last_name := None; member_id := 12 |};
    {| first_name := "Javier"; last_name := Some "Lopez"; member_id := 13 |} ].

End Demo.

(** * Properties *)

(** ** Arithmetic *)

Lemma Qltb_lt (x y : Q) : Qltb x y = true ↔ x < y.
Proof.
  unfold Qltb. rewrite Qlt_alt.
  destruct (Qcompare x y); split; intros H; first [done | discriminate H].
Qed.




(** ** Column labels *)

Lemma length_append (a b : string) :
  String.length (a +:+ b) = (String.length a + String.length b)%nat.
Proof. induction a as [|c a IH]; simpl; [done | by rewrite IH]. Qed.

Lemma append_inj_suffix (a b s t : string) :
  String.length s = String.length t → a +:+ s = b +:+ t → a = b ∧ s = t.
Proof.
  revert b. induction a as [|c a IH]; intros [|d b] Hlen Heq.
  - done.
  - change (s = String d (b +:+ t)) in Heq. subst s.
    cbn in Hlen. rewrite length_append in Hlen. lia.
  - change (String c (a +:+ s) = t) in Heq. subst t.
    cbn in Hlen. rewrite length_append in Hlen. lia.
  - change (String c (a +:+ s) = String d (b +:+ t)) in Heq.
    injection Heq as -> Heq. destruct (IH b Hlen Heq) as [-> ->]. done.
Qed.

Lemma owed_col_inj (c d : string) :
  share_owed_col c = share_owed_col d → drop1 c = drop1 d.
Proof.
  unfold share_owed_col. intros H.
  by apply append_inj_suffix in H as [? _].
Qed.

Lemma paid_col_inj (c d : string) :
  share_paid_col c = share_paid_col d → drop1 c = drop1 d.
Proof.
  unfold share_paid_col. intros H.
  by apply append_inj_suffix in H as [? _].
Qed.

Lemma owed_col_not_paid (c d : string) : share_owed_col c ≠ share_paid_col d.
Proof.
  unfold share_owed_col, share_paid_col. intros H.
  apply append_inj_suffix in H as [_ H]; [discriminate | done].
Qed.

Lemma member_col_label (c : string) :
  is_member_col c = true → "_" +:+ drop1 c = c.
Proof.
  destruct c as [|a c]; simpl; [done|].
  intros H. apply bool_decide_eq_true in H. by subst a.
Qed.

Lemma drop1_inj_member (c d : string) :
  is_member_col c = true → is_member_col d = true → drop1 c = drop1 d → c = d.
Proof.
  intros Hc Hd H. rewrite <- (member_col_label c Hc), <- (member_col_label d Hd).
  by rewrite H.
Qed.

(** ** The error monad *)

Lemma bind_ok {A B : Type} (r : result A) (k : A → result B) (b : B) :
  bind r k = Ok b → ∃ a, r = Ok a ∧ k a = Ok b.
Proof. destruct r as [a|e]; simpl; [eauto | discriminate]. Qed.

Lemma foldR_snoc {A B : Type} (f : B → A → result B) (b : B) (l : list A) (x : A) :
  foldR f b (l ++ [x]) = bind (foldR f b l) (λ b', f b' x).
Proof.
  revert b. induction l as [|y l IH]; intros b; simpl.
  - by destruct (f b x).
  - destruct (f b y) as [b'|e]; simpl; [apply IH | done].
Qed.

Ltac inv_bind H :=
  let a := fresh "a" in
  let Ha := fresh "Ha" in
  apply bind_ok in H as (a & Ha & H).

(** ** The share columns of a row *)

Section Shares.

Variable the_group : group.
Variable members_in_cols : list member.

Local Abbreviation share_of := (getShareOwed the_group members_in_cols).
Local Abbreviation add_columns := (add_member_columns the_group members_in_cols).
Local Abbreviation shares_of := (add_shares the_group members_in_cols).

Lemma getShareOwed_set_computed row m member_name :
  share_of (set_computed row m) member_name = share_of row member_name.
Proof. reflexivity. Qed.

Lemma add_member_columns_inv row col_name row' :
  add_columns row col_name = Ok row' →
  ∃ o, share_of row ("_" +:+ drop1 col_name) = Ok o ∧
       row' = set_computed row
                (<[share_owed_col col_name := o]>
                   (<[share_paid_col col_name := share_paid row col_name]> (computed row))).
Proof.
  unfold add_member_columns. intros H.
  inv_bind H. injection H as <-. eauto.
Qed.

(** What [add_shares] leaves in the row: the sheet columns as they were, and
    for every member column its two computed columns. *)
Lemma add_shares_lookup cols row row' :
  shares_of cols row = Ok row' →
  row' = set_computed row (computed row') ∧
  ∀ c, c ∈ cols →
    computed row' !! share_paid_col c = Some (share_paid row c) ∧
    ∃ o, share_of row ("_" +:+ drop1 c) = Ok o ∧
         computed row' !! share_owed_col c = Some o.
Proof.
  unfold add_shares. revert row'.
  induction cols as [|x l IH] using rev_ind; intros row' H.
  - injection H as <-. split; [by destruct row | intros c Hc; inversion Hc].
  - rewrite foldR_snoc in H. inv_bind H.
    destruct (IH _ Ha) as [Hrow Hl]. clear IH.
    apply add_member_columns_inv in H as (o & Ho & ->).
    rewrite Hrow in Ho. rewrite getShareOwed_set_computed in Ho.
    split; [by rewrite Hrow at 1|].
    intros c [Hc | ->%list_elem_of_singleton]%elem_of_app; simpl.
    + destruct (Hl c Hc) as (Hp & o' & Ho' & Hlk).
      split.
      * rewrite lookup_insert_ne by apply owed_col_not_paid.
        destruct (decide (share_paid_col x = share_paid_col c)) as [E|E].
        -- rewrite E, lookup_insert_eq. f_equal.
           apply paid_col_inj in E. unfold share_paid.
           rewrite Hrow. simpl. by rewrite E.
        -- by rewrite lookup_insert_ne.
      * destruct (decide (share_owed_col x = share_owed_col c)) as [E|E].
        -- exists o. rewrite E, lookup_insert_eq. split; [|done].
           apply owed_col_inj in E. by rewrite <- E.
        -- exists o'. rewrite lookup_insert_ne by done.
           rewrite lookup_insert_ne; [done|].
           intros E'. symmetry in E'. by apply owed_col_not_paid in E'.
    + rewrite lookup_insert_ne by apply owed_col_not_paid.
      rewrite !lookup_insert_eq. split.
      * f_equal. unfold share_paid. rewrite Hrow. done.
      * eauto.
Qed.


Lemma add_shares_total cols row :
  (∀ c, c ∈ cols → ∃ o, share_of row ("_" +:+ drop1 c) = Ok o) →
  ∃ row', shares_of cols row = Ok row'.
Proof.
  unfold add_shares. revert row.
  induction cols as [|c l IH]; intros row Hres; simpl; [eauto|].
  destruct (Hres c) as [o Ho]; [left|].
  unfold add_member_columns at 1. rewrite Ho. simpl.
  apply IH. intros c' Hc'. apply Hres. by right.
Qed.


End Shares.

(** The resolver names its members after the columns, in order. *)
Lemma resolve_members_names members_df cols mic :
  resolve_members members_df cols = Ok mic → name <$> mic = drop1 <$> cols.
Proof.
  unfold resolve_members. revert mic.
  induction cols as [|c l IH]; intros mic H; simpl in H.
  - by injection H as <-.
  - inv_bind H. inv_bind H. injection H as <-.
    rewrite !fmap_cons, (IH _ Ha0). f_equal.
    unfold member_of_col in Ha.
    destruct (filter _ members_df); [discriminate|]. by injection Ha as <-.
Qed.

(** ** The split policies *)

Lemma getShareOwed_absent grp mic row member_name :
  cells row !! member_name = None → getShareOwed grp mic row member_name = Ok 0.
Proof. intros H. unfold getShareOwed. by rewrite H. Qed.


Lemma getShareOwed_unknown grp mic row member_name :
  truthy (All_equal row) = false → known_split_type row = false →
  getShareOwed grp mic row member_name = Ok 0.
Proof.
  intros Hae Hst. unfold getShareOwed.
  destruct (cells row !! member_name); [|done]. rewrite Hae.
  unfold known_split_type in Hst.
  apply orb_false_elim in Hst as [Hst Heq].
  apply orb_false_elim in Hst as [Hsh Ham].
  apply bool_decide_eq_false in Hsh, Ham, Heq.
  by rewrite !decide_False.
Qed.






(** C2, as the code has it: with All equal false and a split type other than
    "share", "amount" and "equal" (or none), [getShareOwed] raises nothing and
    returns 0 for every member, and the shares of the row are computed without
    an exception, every share owed being 0. *)
Theorem unknown_split_type_owes_zero grp mic cols row :
  truthy (All_equal row) = false → known_split_type row = false →
  (∀ member_name, getShareOwed grp mic row member_name = Ok 0) ∧
  ∃ row', add_shares grp mic cols row = Ok row' ∧
    ∀ c, c ∈ cols → computed row' !! share_owed_col c = Some 0.
Proof.
  intros Hae Hst. split; [intros; by apply getShareOwed_unknown|].
  destruct (add_shares_total grp mic cols row) as [row' Hrow'].
  { intros c _. rewrite getShareOwed_unknown; eauto. }
  exists row'. split; [done|]. intros c Hc.
  destruct (add_shares_lookup _ _ _ _ _ Hrow') as [_ Hl].
  destruct (Hl c Hc) as (_ & o & Ho & Hlk).
  rewrite getShareOwed_unknown in Ho by done. congruence.
Qed.

Lemma unknown_split_type_owes_zero_witness :
  getShareOwed Sample.the_group Sample.members_in_cols
    (Sample.frame_row Sample.bogus) "_Alice" = Ok 0.
Proof.
  apply (unknown_split_type_owes_zero Sample.the_group Sample.members_in_cols
           Sample.cols (Sample.frame_row Sample.bogus)); reflexivity.
Defined.

(** C2 as stated fails: the row with split type "bogus" and All equal "n"
    raises no exception, in [getShareOwed] or anywhere up to the frame handed
    to the validator, and every member's share owed is 0. *)
Lemma unknown_split_type_not_raised :
  truthy (All_equal (Sample.frame_row Sample.bogus)) = false ∧
  Split_type (Sample.frame_row Sample.bogus) = Some "bogus" ∧
  getShareOwed Sample.the_group Sample.members_in_cols
    (Sample.frame_row Sample.bogus) "_Alice" = Ok 0 ∧
  ¬ raised (getShareOwed Sample.the_group Sample.members_in_cols
              (Sample.frame_row Sample.bogus) "_Alice") ∧
  ∃ mic row', compute_frame (λ _, 0%nat)
               Sample.the_group Sample.columns [Sample.bogus] Sample.members_df
             = Ok (mic, [row']) ∧
           owed row' "_Alice" = 0 ∧ owed row' "_Bob" = 0 ∧ owed row' "_Carol" = 0.
Proof.
  split; [reflexivity|]. split; [reflexivity|]. split; [reflexivity|].
  split; [intros [e He]; discriminate He|].
  eexists _, _. split; [vm_compute; reflexivity|].
  repeat split; vm_compute; reflexivity.
Qed.

(** C3 on the code: a row split all-equal (90.00 in a group of three) with only
    Alice's cell filled in gives Alice round(90 / 3, 2) = 30.00 and gives Bob
    and Carol, whose cells are empty, 0. *)
Theorem all_equal_skips_empty_cells :
  truthy (All_equal (Sample.frame_row Sample.blank_cells)) = true ∧
  length (members Sample.the_group) = 3%nat ∧
  round2 (90 / 3) == 30 ∧
  ∃ row', Sample.shares Sample.blank_cells = Ok row' ∧
    owed row' "_Alice" == 30 ∧ owed row' "_Bob" = 0 ∧ owed row' "_Carol" = 0 ∧
    getShareOwed Sample.the_group Sample.members_in_cols
      (Sample.frame_row Sample.blank_cells) "_Bob" = Ok 0.
Proof.
  split; [reflexivity|]. split; [reflexivity|]. split; [reflexivity|].
  eexists. split; [vm_compute; reflexivity|].
  repeat split; vm_compute; reflexivity.
Qed.

(** ** Who paid *)




(** ** Resolving member columns *)

Lemma filter_first_match (members_df pre post : list Members.row) r (nm : string) :
  members_df = pre ++ r :: post →
  Forall (λ x, Members.Name x ≠ nm) pre → Members.Name r = nm →
  ∃ rest, filter (λ x, Members.Name x = nm) members_df = r :: rest.
Proof.
  intros -> Hpre Hr. induction Hpre as [|x pre Hx _ IH]; simpl.
  - rewrite filter_cons_True by done. eauto.
  - by rewrite filter_cons_False.
Qed.

(** C6, as the code has it: a member column is bound to the ID of the first
    row of the Members sheet that carries its name, whether or not later rows
    carry the same name; the lookup raises (an IndexError) exactly when no
    row carries the name. *)
Theorem resolver_binds_first_match members_df col :
  (∀ pre r post,
     members_df = pre ++ r :: post →
     Forall (λ x, Members.Name x ≠ drop1 col) pre → Members.Name r = drop1 col →
     member_of_col members_df col = Ok {| name := drop1 col; id := Members.ID r |}) ∧
  (Forall (λ x, Members.Name x ≠ drop1 col) members_df ↔
     member_of_col members_df col = Raise IndexError).
Proof.
  split.
  - intros pre r post Hdf Hpre Hr. unfold member_of_col.
    by destruct (filter_first_match _ _ _ _ _ Hdf Hpre Hr) as [rest ->].
  - unfold member_of_col. split.
    + intros Hnone.
      assert (filter (λ x, Members.Name x = drop1 col) members_df = []) as ->; [|done].
      induction Hnone; [done|]. by rewrite filter_cons_False.
    + intros H. apply Forall_forall. intros x Hx Hn.
      assert (x ∈ filter (λ r, Members.Name r = drop1 col) members_df) as Hin
        by (by apply list_elem_of_filter).
      destruct (filter _ members_df); [inversion Hin | discriminate].
Qed.

Lemma resolver_binds_first_match_witness :
  member_of_col Sample.twins_df "_Alice" = Ok {| name := "Alice"; id := 11 |}.
Proof.
  apply (proj1 (resolver_binds_first_match Sample.twins_df "_Alice") []
           {| Members.Name := "Alice"; Members.ID := 11 |}
           [ {| Members.Name := "Alice"; Members.ID := 12 |} ]).
  - reflexivity.
  - constructor.
  - reflexivity.
Defined.

(** C6 as stated fails: with two rows named "Alice" in the Members sheet the
    resolver raises nothing, binds the column to the first row (ID 11), and
    the shares are then computed. *)
Lemma duplicate_member_name_accepted :
  resolve_members Sample.twins_df ["_Alice"] = Ok [ {| name := "Alice"; id := 11 |} ] ∧
  ¬ raised (resolve_members Sample.twins_df ["_Alice"]) ∧
  ∃ rows, compute_frame (λ _, 0%nat) Sample.the_group Sample.twin_columns
            [Sample.line 50 "Bob" "n" "amount" [("_Alice", 50)]] Sample.twins_df
          = Ok ([ {| name := "Alice"; id := 11 |} ], rows) ∧
          (λ r, owed r "_Alice") <$> rows = [50].
Proof.
  split; [reflexivity|]. split; [intros [e He]; discriminate He|].
  eexists. split; vm_compute; reflexivity.
Qed.

(** ** The commit gate *)

Section Gate.

Context {Errors Messages : Type}.
Variable describe_errors :
  list expense_row → list Members.row → group → Errors * Messages * Z.


End Gate.



(** ** The rounding correction *)

Lemma get_owed cols row c :
  has_owed_columns cols row → c ∈ cols → get row (share_owed_col c) = Ok (owed row c).
Proof.
  intros Hcols Hc. unfold get, owed.
  by destruct (Hcols c Hc) as [v ->].
Qed.

Lemma share_owed_columns_has cols row l :
  share_owed_columns row cols = Ok l → has_owed_columns cols row.
Proof.
  revert l. induction cols as [|x cols IH]; intros l H c Hc; [inversion Hc|].
  simpl in H. inv_bind H. inv_bind H.
  apply elem_of_cons in Hc as [-> | Hc]; [|by eapply IH].
  unfold get in Ha. destruct (computed row !! share_owed_col x); [eauto | discriminate].
Qed.

Lemma share_owed_columns_eq all_cols row cols :
  has_owed_columns all_cols row → cols ⊆ all_cols →
  share_owed_columns row cols = Ok (share_owed_col <$> positive_cols cols row).
Proof.
  intros Hall. induction cols as [|x cols IH]; intros Hsub; [done|].
  simpl. rewrite (get_owed all_cols) by (done || set_solver). simpl.
  rewrite IH by set_solver. simpl. unfold positive_cols.
  destruct (Qltb 0 (owed row x)) eqn:E.
  - by rewrite filter_cons_True.
  - rewrite filter_cons_False; [done | congruence].
Qed.

Lemma traverse_get_owed all_cols row l :
  has_owed_columns all_cols row → l ⊆ all_cols →
  traverse (get row) (share_owed_col <$> l) = Ok (owed row <$> l).
Proof.
  intros Hall. induction l as [|x l IH]; intros Hsub; [done|].
  rewrite !fmap_cons. cbn [traverse].
  rewrite (get_owed all_cols) by (done || set_solver). cbn [bind].
  rewrite IH by set_solver. done.
Qed.

Lemma choice_fmap {A B : Type} (f : A → B) rnd (l : list A) :
  choice rnd (f <$> l) = bind (choice rnd l) (λ x, Ok (f x)).
Proof.
  unfold choice. rewrite length_fmap, list_lookup_fmap.
  by destruct (l !! (rnd mod length l)%nat).
Qed.

Lemma choice_elem_of {A : Type} rnd (l : list A) x : choice rnd l = Ok x → x ∈ l.
Proof.
  unfold choice. destruct (l !! _) eqn:E; [|discriminate].
  intros [= <-]. by eapply list_elem_of_lookup_2.
Qed.

Lemma choice_nonempty {A : Type} rnd (l : list A) : l ≠ [] → ∃ x, choice rnd l = Ok x.
Proof.
  intros Hl. unfold choice.
  destruct (lookup_lt_is_Some_2 l (rnd mod length l)%nat) as [x ->]; [|eauto].
  apply Nat.mod_upper_bound. by destruct l.
Qed.


(** [AssignRoundingDiff] in terms of the quantities it computes. *)
Lemma AssignRoundingDiff_eq cols rnd row :
  has_owed_columns cols row →
  AssignRoundingDiff cols rnd row =
    if within_tolerance (rounding_diff cols row) then
      bind (choice rnd (positive_cols cols row))
        (λ c, Ok (subtract_from row c (round2 (rounding_diff cols row))))
    else Ok row.
Proof.
  intros Hcols. unfold AssignRoundingDiff.
  rewrite (share_owed_columns_eq cols) by done. cbn [bind].
  assert (positive_cols cols row ⊆ cols) as Hsub.
  { intros c Hc. by apply list_elem_of_filter in Hc as [_ ?]. }
  rewrite (traverse_get_owed cols) by done. cbn [bind].
  fold (rounding_diff cols row). fold (within_tolerance (rounding_diff cols row)).
  destruct (within_tolerance (rounding_diff cols row)); [|done].
  rewrite choice_fmap.
  destruct (choice rnd (positive_cols cols row)) as [c|e] eqn:Hch; [|done].
  cbn [bind]. rewrite (get_owed cols); [done | done |].
  apply Hsub. by eapply choice_elem_of.
Qed.

Lemma within_tolerance_spec d :
  within_tolerance d = true ↔ 0 < Qabs d ∧ Qabs d < 2 # 100.
Proof.
  unfold within_tolerance. rewrite andb_true_iff, !Qltb_lt. done.
Qed.



Lemma positive_cols_spec cols row c :
  c ∈ positive_cols cols row ↔ c ∈ cols ∧ 0 < owed row c.
Proof.
  unfold positive_cols. rewrite list_elem_of_filter, Qltb_lt. tauto.
Qed.


Lemma owed_subtract_other cols row c c' w :
  member_columns cols → c ∈ cols → c' ∈ cols → c' ≠ c →
  owed (subtract_from row c w) c' = owed row c'.
Proof.
  intros [_ Hmem] Hc Hc' Hne. rewrite Forall_forall in Hmem.
  unfold owed at 1, subtract_from. simpl.
  rewrite lookup_insert_ne; [done|].
  intros E%owed_col_inj. apply Hne. symmetry.
  by apply drop1_inj_member; [apply Hmem | apply Hmem |].
Qed.

Lemma subtract_from_other_label row c w label :
  label ≠ share_owed_col c →
  computed (subtract_from row c w) !! label = computed row !! label.
Proof. intros Hne. unfold subtract_from. simpl. by rewrite lookup_insert_ne. Qed.


Lemma sample_member_columns : member_columns Sample.cols.
Proof.
  split; [apply (bool_decide_unpack _); vm_compute; exact I | repeat constructor].
Defined.

Lemma sample_has_owed_columns s :
  (∃ row, Sample.shares s = Ok row) → has_owed_columns Sample.cols (Sample.with_shares s).
Proof.
  intros [row Hrow] c Hc. unfold Sample.with_shares. rewrite Hrow.
  destruct (add_shares_lookup _ _ _ _ _ Hrow) as [_ Hl].
  destruct (Hl c Hc) as (_ & o & _ & ->). eauto.
Defined.



Lemma set_computed_id row : set_computed row (computed row) = row.
Proof. by destruct row. Qed.

(** C10: when [AssignRoundingDiff] returns, the sheet columns of the row
    (Amount, payer, cells and the rest) and every share paid are as before;
    either the row is unchanged or exactly one computed column, the share
    owed of one member column, was overwritten, all other labels keeping
    their value; the member chosen had a positive share owed, so a member
    whose share owed is 0 or negative keeps it. *)
Theorem rounding_correction_frame cols rnd row row' :
  member_columns cols → AssignRoundingDiff cols rnd row = Ok row' →
  row' = set_computed row (computed row') ∧
  (∀ c, computed row' !! share_paid_col c = computed row !! share_paid_col c) ∧
  (row' = row ∨
   ∃ c, c ∈ cols ∧ 0 < owed row c ∧
        computed row' =
          <[share_owed_col c := owed row c - round2 (rounding_diff cols row)]> (computed row) ∧
        (∀ label, label ≠ share_owed_col c →
           computed row' !! label = computed row !! label) ∧
        (∀ c', c' ∈ cols → c' ≠ c → owed row' c' = owed row c')) ∧
  (∀ c, c ∈ cols → owed row c <= 0 → owed row' c = owed row c).
Proof.
  intros Hmc H.
  assert (has_owed_columns cols row) as Hcols.
  { unfold AssignRoundingDiff in H. inv_bind H. by eapply share_owed_columns_has. }
  rewrite AssignRoundingDiff_eq in H by done.
  destruct (within_tolerance (rounding_diff cols row)).
  - inv_bind H. injection H as <-.
    pose proof (choice_elem_of _ _ _ Ha) as [Hc Hpc]%positive_cols_spec.
    split; [done|]. split.
    { intros c. apply subtract_from_other_label.
      intros E. symmetry in E. by apply owed_col_not_paid in E. }
    split.
    + right. exists a. split; [done|]. split; [done|]. split; [done|].
      split; [intros; by apply subtract_from_other_label|].
      intros c' Hc' Hne. by apply (owed_subtract_other cols).
    + intros c Hcc Hle. apply (owed_subtract_other cols); try done.
      intros ->. by apply (Qlt_not_le _ _ Hpc).
  - injection H as <-. rewrite set_computed_id. auto.
Qed.

Lemma rounding_correction_frame_witness :
  ∃ row', AssignRoundingDiff Sample.cols 1 (Sample.with_shares Sample.thirds) = Ok row' ∧
          Amount row' = 100 ∧ paid row' "_Bob" = 100.
Proof.
  destruct (AssignRoundingDiff Sample.cols 1 (Sample.with_shares Sample.thirds))
    as [row'|e] eqn:E; [| exfalso; vm_compute in E; discriminate E].
  exists row'. split; [reflexivity|].
  destruct (rounding_correction_frame Sample.cols 1 (Sample.with_shares Sample.thirds) row'
              sample_member_columns E) as (Hrow & Hpaid & _).
  split.
  - rewrite Hrow. vm_compute. reflexivity.
  - unfold paid. rewrite Hpaid. vm_compute. reflexivity.
Defined.

(** ** The sum of the shares owed *)





(** When no share owed is positive and the Amount is below two cents,
    [random.choice] is handed an empty list. *)
Lemma AssignRoundingDiff_empty_choice rnd :
  Sample.shares Sample.one_cent = Ok (Sample.with_shares Sample.one_cent) ∧
  AssignRoundingDiff Sample.cols rnd (Sample.with_shares Sample.one_cent) = Raise IndexError.
Proof.
  split; [vm_compute; reflexivity|].
  rewrite AssignRoundingDiff_eq.
  - assert (within_tolerance
              (rounding_diff Sample.cols (Sample.with_shares Sample.one_cent)) = true)
      as -> by (vm_compute; reflexivity).
    assert (positive_cols Sample.cols (Sample.with_shares Sample.one_cent) = [])
      as -> by (vm_compute; reflexivity).
    reflexivity.
  - apply sample_has_owed_columns. eexists. vm_compute. reflexivity.
Qed.






(** ** The frame as a whole *)

(** With two rows of the Members sheet named like the payer, the merge
    yields the expense row twice, once per payer id. *)
Lemma merge_payer_repeats_row :
  Payer_ID <$> merge_payer Sample.twins_df
                 (read_row ["_Alice"] (Sample.line 50 "Alice" "n" "amount" [("_Alice", 50)]))
  = [Some 11%Z; Some 12%Z].
Proof. reflexivity. Qed.

Lemma cols_of_member_columns columns : NoDup columns → member_columns (cols_of columns).
Proof.
  intros Hnd. split.
  - by apply NoDup_filter.
  - apply Forall_forall. intros c Hc. by apply list_elem_of_filter in Hc as [? _].
Qed.

Lemma traverse_Forall2 {A B : Type} (f : A → result B) l l' :
  traverse f l = Ok l' → Forall2 (λ x y, f x = Ok y) l l'.
Proof.
  revert l'. induction l as [|x l IH]; intros l' H; simpl in H.
  - injection H as <-. constructor.
  - inv_bind H. inv_bind H. injection H as <-. constructor; auto.
Qed.

Lemma apply_rows_Forall2 f draws i rows rows' :
  apply_rows f draws i rows = Ok rows' →
  Forall2 (λ x y, ∃ rnd, f rnd x = Ok y) rows rows'.
Proof.
  revert i rows'. induction rows as [|x l IH]; intros i rows' H; simpl in H.
  - injection H as <-. constructor.
  - inv_bind H. inv_bind H. injection H as <-. constructor; eauto.
Qed.

(** Every row of the frame handed to the validator went through
    [add_shares] and then [AssignRoundingDiff], with all its share-owed
    columns in place, and the member columns have the shape the statements
    above assume. *)
Lemma compute_frame_rows draws the_group columns sheet members_df mic rows :
  NoDup columns →
  compute_frame draws the_group columns sheet members_df = Ok (mic, rows) →
  member_columns (cols_of columns) ∧
  resolve_members members_df (cols_of columns) = Ok mic ∧
  name <$> mic = drop1 <$> cols_of columns ∧
  ∀ row', row' ∈ rows →
    ∃ rnd row,
      has_owed_columns (cols_of columns) row ∧
      AssignRoundingDiff (cols_of columns) rnd row = Ok row'.
Proof.
  intros Hnd H. unfold compute_frame in H.
  inv_bind H. inv_bind H. inv_bind H. injection H as <- <-.
  split; [by apply cols_of_member_columns|]. split; [done|].
  split; [exact (resolve_members_names _ _ _ Ha)|].
  intros row' Hrow'.
  apply apply_rows_Forall2 in Ha1. apply traverse_Forall2 in Ha0.
  apply list_elem_of_lookup_1 in Hrow' as [i Hi].
  destruct (Forall2_lookup_r _ _ _ _ _ Ha1 Hi) as (row & Hrow & rnd & Hrnd).
  destruct (Forall2_lookup_r _ _ _ _ _ Ha0 Hrow) as (row1 & _ & Hshares).
  exists rnd, row. split; [|done].
  intros c Hc. destruct (add_shares_lookup _ _ _ _ _ Hshares) as [_ Hl].
  destruct (Hl c Hc) as (_ & o & _ & ->). eauto.
Qed.

(** * Further properties of the handlers *)

(** ** Reading the [All equal] column *)

Lemma lower_ascii_n c : lower_ascii c = "n"%char → c = "n"%char ∨ c = "N"%char.
Proof.
  destruct c as [[] [] [] [] [] [] [] []]; vm_compute; intros H;
    first [discriminate H | by left | by right].
Qed.

Lemma lower_n s : lower s = "n" ↔ s = "n" ∨ s = "N".
Proof.
  split; [|by intros [-> | ->]].
  destruct s as [|c [|d s]]; simpl; intros H; try discriminate H.
  injection H as H. by destruct (lower_ascii_n c H) as [-> | ->]; [left | right].
Qed.

Lemma lower_empty s : lower s = "" ↔ s = "".
Proof. by destruct s. Qed.

(** The [All equal] cell counts as "no" only when it holds the letter n, in
    either case, or the empty text; every other content counts as "yes",
    and so does a cell left empty, which reads as "nan". *)
Theorem all_equal_cell_reading c :
  (truthy (read_all_equal c) = false ↔ c = Some "" ∨ c = Some "n" ∨ c = Some "N") ∧
  truthy (read_all_equal None) = true.
Proof.
  split; [|reflexivity]. unfold read_all_equal.
  destruct (decide (lower (astype_str c) = "y")) as [Hy|Hy].
  { split; [discriminate|]. intros [-> | [-> | ->]]; vm_compute in Hy; discriminate Hy. }
  destruct (decide (lower (astype_str c) = "n")) as [Hn|Hn].
  { split; [intros _ | done]. apply lower_n in Hn.
    destruct c as [s|]; simpl in Hn; [|by destruct Hn].
    destruct Hn as [-> | ->]; [right; by left | right; by right]. }
  destruct (decide (lower (astype_str c) = "")) as [He|He].
  { split; [intros _ | done]. apply (proj1 (lower_empty _)) in He.
    destruct c as [s|]; simpl in He; [left; by rewrite He | discriminate He]. }
  simpl. rewrite bool_decide_eq_false_2 by done. split; [discriminate|].
  intros [-> | [-> | ->]]; exfalso; [by apply He | by apply Hn | by apply Hn].
Qed.

(** ** The remaining split policies *)

Lemma getShareOwed_amount grp mic row member_name v :
  truthy (All_equal row) = false → Split_type row = Some "amount" →
  cells row !! member_name = Some v →
  getShareOwed grp mic row member_name = Ok v.
Proof.
  intros Hae Hst Hv. unfold getShareOwed. rewrite Hv, Hae, Hst.
  rewrite decide_False by done. by rewrite decide_True.
Qed.

Lemma getShareOwed_all_equal grp mic row member_name v :
  truthy (All_equal row) = true → cells row !! member_name = Some v →
  getShareOwed grp mic row member_name =
    bind (div_len (Amount row) (length (members grp))) (λ q, Ok (round2 q)).
Proof. intros Hae Hv. unfold getShareOwed. by rewrite Hv, Hae. Qed.

(** With All equal false and split type "amount", the shares are computed
    without an exception, a member column receives the value of its cell as
    it stands and 0 when the cell is empty, and the shares owed add up to the
    row's Total Shares. *)
Theorem share_split_fixed_amounts grp mic cols row :
  truthy (All_equal row) = false → Split_type row = Some "amount" →
  Forall (λ c, is_member_col c = true) cols →
  Total_Shares row = Qsum (omap (λ c, cells row !! c) cols) →
  ∃ row', add_shares grp mic cols row = Ok row' ∧
    (∀ c, c ∈ cols → computed row' !! share_owed_col c = Some (default 0 (cells row !! c))) ∧
    owed_total cols row' == Total_Shares row'.
Proof.
  intros Hae Hst Hmem Htot.
  assert (∀ c, getShareOwed grp mic row c = Ok (default 0 (cells row !! c))) as Hshare.
  { intros c. destruct (cells row !! c) as [v|] eqn:Hv.
    - by apply getShareOwed_amount.
    - by apply getShareOwed_absent. }
  destruct (add_shares_total grp mic cols row) as [row' Hrow']; [eauto|].
  exists row'. split; [done|].
  destruct (add_shares_lookup _ _ _ _ _ Hrow') as [Hsame Hl].
  rewrite Forall_forall in Hmem.
  assert (∀ c, c ∈ cols →
            computed row' !! share_owed_col c = Some (default 0 (cells row !! c))) as Howed.
  { intros c Hc. destruct (Hl c Hc) as (_ & o & Ho & Hlk).
    rewrite (member_col_label c (Hmem c Hc)), Hshare in Ho. congruence. }
  split; [done|].
  assert (Total_Shares row' = Total_Shares row) as -> by (by rewrite Hsame).
  rewrite Htot. unfold owed_total.
  clear Hl Hrow' Htot Hsame. induction cols as [|c cols IH]; [reflexivity|].
  assert (Qsum (owed row' <$> cols) == Qsum (omap (λ c, cells row !! c) cols)) as IH'.
  { apply IH; intros; [apply Hmem | apply Howed]; by right. }
  rewrite fmap_cons. cbn [omap list_omap Qsum foldr].
  fold (Qsum (owed row' <$> cols)). unfold owed at 1. rewrite Howed by left.
  destruct (cells row !! c) as [v|]; cbn [default from_option foldr Datatypes.id];
    fold (Qsum (omap (λ c, cells row !! c) cols)); lra.
Qed.

Lemma share_split_fixed_amounts_witness :
  ∃ row', Sample.shares Sample.refund = Ok row' ∧
          owed_total Sample.cols row' == Total_Shares row'.
Proof.
  destruct (share_split_fixed_amounts Sample.the_group Sample.members_in_cols
              Sample.cols (Sample.frame_row Sample.refund))
    as (row' & Hrow' & _ & H).
  - reflexivity.
  - reflexivity.
  - repeat constructor.
  - reflexivity.
  - exists row'. split; [exact Hrow' | exact H].
Defined.



(** ** When the share calculation raises *)

Lemma foldR_raise {A B : Type} (f : B → A → result B) (b : B) (l : list A) e :
  foldR f b l = Raise e → ∃ pre x post b', l = pre ++ x :: post ∧
    foldR f b pre = Ok b' ∧ f b' x = Raise e.
Proof.
  revert b. induction l as [|x l IH]; intros b H; simpl in H; [discriminate|].
  destruct (f b x) as [b1|e1] eqn:E; simpl in H.
  - destruct (IH _ H) as (pre & y & post & b' & -> & Hpre & Hy).
    exists (x :: pre), y, post, b'. split; [done|]. split; [|done].
    simpl. by rewrite E.
  - injection H as <-. exists [], x, l, b. done.
Qed.

Lemma getShareOwed_raise grp mic row member_name e :
  getShareOwed grp mic row member_name = Raise e →
  e = ZeroDivisionError ∧ is_Some (cells row !! member_name) ∧
  ((truthy (All_equal row) = true ∧ members grp = []) ∨
   (truthy (All_equal row) = false ∧ listed_members mic row = [])).
Proof.
  unfold getShareOwed. destruct (cells row !! member_name) as [v|]; [|discriminate].
  destruct (truthy (All_equal row)).
  - destruct (members grp); simpl; [|discriminate].
    intros [= <-]. eauto.
  - repeat case_decide; try discriminate.
    rewrite length_fmap. fold (listed_members mic row).
    destruct (listed_members mic row); simpl; [|discriminate].
    intros [= <-]. eauto.
Qed.

(** With the member columns resolved, computing the shares of a row raises
    exactly when the row is split all-equal, the group has no member and some
    member column has a value in its cell; the exception is then a
    ZeroDivisionError. *)
Theorem share_calculation_raises grp mic cols row :
  name <$> mic = drop1 <$> cols →
  (raised (add_shares grp mic cols row) ↔
     truthy (All_equal row) = true ∧ members grp = [] ∧
     ∃ c, c ∈ cols ∧ is_Some (cells row !! ("_" +:+ drop1 c))) ∧
  (∀ e, add_shares grp mic cols row = Raise e → e = ZeroDivisionError).
Proof.
  intros Hres.
  assert (∀ e, add_shares grp mic cols row = Raise e →
            e = ZeroDivisionError ∧ truthy (All_equal row) = true ∧ members grp = [] ∧
            ∃ c, c ∈ cols ∧ is_Some (cells row !! ("_" +:+ drop1 c))) as Hraise.
  { intros e H. unfold add_shares in H.
    apply foldR_raise in H as (pre & c & post & row1 & -> & Hpre & Hc).
    destruct (add_shares_lookup grp mic pre row row1 Hpre) as [Hsame _].
    unfold add_member_columns in Hc.
    destruct (getShareOwed grp mic row1 ("_" +:+ drop1 c)) as [o|e'] eqn:Ho;
      [discriminate|]. injection Hc as ->.
    rewrite Hsame, getShareOwed_set_computed in Ho.
    apply getShareOwed_raise in Ho as (-> & Hcell & [[Hae Hg] | [Hae Hl]]).
    - split; [done|]. split; [done|]. split; [done|].
      exists c. split; [|done]. apply elem_of_app. right. left.
    - exfalso.
      assert (drop1 c ∈ name <$> mic) as Hin.
      { rewrite Hres. apply list_elem_of_fmap_2, elem_of_app. right. left. }
      apply list_elem_of_fmap in Hin as (m & Hn & Hm).
      assert (m ∈ listed_members mic row) as Hlm.
      { apply list_elem_of_filter. split; [by rewrite <- Hn | done]. }
      rewrite Hl in Hlm. inversion Hlm. }
  split; [|intros e He; by destruct (Hraise e He)].
  split.
  - intros [e He]. by destruct (Hraise e He) as (_ & ? & ? & ?).
  - intros (Hae & Hg & c & Hc & [v Hv]).
    destruct (add_shares grp mic cols row) as [row'|e] eqn:E; [|by exists e].
    exfalso. destruct (add_shares_lookup _ _ _ _ _ E) as [_ Hl].
    destruct (Hl c Hc) as (_ & o & Ho & _).
    rewrite (getShareOwed_all_equal _ _ _ _ v), Hg in Ho by done. discriminate Ho.
Qed.

Lemma share_calculation_raises_witness :
  add_shares {| group_id := 7; members := [] |} Sample.members_in_cols Sample.cols
    (Sample.frame_row Sample.blank_cells) = Raise ZeroDivisionError.
Proof.
  destruct (share_calculation_raises {| group_id := 7; members := [] |}
              Sample.members_in_cols Sample.cols (Sample.frame_row Sample.blank_cells))
    as [Hiff Herr]; [reflexivity|].
  destruct (add_shares {| group_id := 7; members := [] |} Sample.members_in_cols
              Sample.cols (Sample.frame_row Sample.blank_cells)) as [row'|e] eqn:E.
  - exfalso. assert (raised (Ok row')) as [e He]; [|discriminate He].
    apply Hiff. split; [reflexivity|]. split; [reflexivity|].
    exists "_Alice". split; [left | vm_compute; eauto].
  - f_equal. by apply Herr.
Defined.

(** ** When the rounding correction raises *)

Lemma share_owed_columns_raise row cols e :
  share_owed_columns row cols = Raise e →
  ∃ c, c ∈ cols ∧ computed row !! share_owed_col c = None ∧ e = KeyError (share_owed_col c).
Proof.
  induction cols as [|x cols IH]; simpl; [discriminate|].
  unfold get at 1. destruct (computed row !! share_owed_col x) as [v|] eqn:Hx; simpl.
  - destruct (share_owed_columns row cols) as [l|e'] eqn:E; simpl; [discriminate|].
    intros [= <-]. destruct (IH eq_refl) as (c & Hc & Hnone & ->).
    exists c. split; [by right | done].
  - intros [= <-]. exists x. split; [left | done].
Qed.

Lemma rounding_diff_no_positive cols row :
  positive_cols cols row = [] → rounding_diff cols row == - Amount row.
Proof. intros H. unfold rounding_diff. rewrite H. simpl. ring. Qed.

(** The rounding correction raises in two cases only.  When every share-owed
    column is in the row, it raises exactly when no share owed is positive
    and the Amount lies strictly between 0 and 0.02 in absolute value, and the
    exception is the IndexError of [random.choice]; when a share-owed column
    is missing, it raises the KeyError of a missing column. *)
Theorem rounding_correction_raises cols rnd row :
  (has_owed_columns cols row →
     (raised (AssignRoundingDiff cols rnd row) ↔
        positive_cols cols row = [] ∧ 0 < Qabs (Amount row) ∧ Qabs (Amount row) < 2 # 100) ∧
     (∀ e, AssignRoundingDiff cols rnd row = Raise e → e = IndexError)) ∧
  (¬ has_owed_columns cols row →
     ∃ c, c ∈ cols ∧ computed row !! share_owed_col c = None ∧
          AssignRoundingDiff cols rnd row = Raise (KeyError (share_owed_col c))).
Proof.
  split.
  - intros Hcols. rewrite AssignRoundingDiff_eq by done.
    destruct (within_tolerance (rounding_diff cols row)) eqn:Hin.
    + apply within_tolerance_spec in Hin as [Hpos Hlt].
      destruct (positive_cols cols row) as [|c l] eqn:Hp.
      * assert (rounding_diff cols row == - Amount row) as Hd
          by (by apply rounding_diff_no_positive).
        rewrite Hd, Qabs_opp in Hpos, Hlt.
        split; [|by intros e [= <-]].
        split; [done | intros _; by exists IndexError].
      * destruct (choice_nonempty rnd (c :: l)) as [x Hx]; [done|].
        rewrite Hx. simpl. split; [|discriminate].
        split; [intros [e He]; discriminate He | intros [? _]; discriminate].
    + split; [|discriminate].
      split; [intros [e He]; discriminate He|].
      intros (Hp & Hpos & Hlt). exfalso.
      assert (within_tolerance (rounding_diff cols row) = true); [|congruence].
      apply within_tolerance_spec.
      by rewrite (rounding_diff_no_positive _ _ Hp), Qabs_opp.
  - intros Hnot. unfold AssignRoundingDiff.
    destruct (share_owed_columns row cols) as [l|e] eqn:E.
    + exfalso. apply Hnot. by eapply share_owed_columns_has.
    + destruct (share_owed_columns_raise _ _ _ E) as (c & Hc & Hnone & ->).
      exists c. done.
Qed.

Lemma rounding_correction_raises_witness :
  AssignRoundingDiff Sample.cols 3 (Sample.with_shares Sample.one_cent) = Raise IndexError.
Proof.
  destruct (rounding_correction_raises Sample.cols 3 (Sample.with_shares Sample.one_cent))
    as [H _].
  destruct H as [Hiff Herr].
  { apply sample_has_owed_columns. eexists. vm_compute. reflexivity. }
  destruct Hiff as [_ Hraise]. destruct Hraise as [e He].
  { split; [vm_compute; reflexivity|]. split; vm_compute; reflexivity. }
  rewrite He. f_equal. by apply Herr.
Defined.

(** ** Amounts in whole cents *)











(** ** The payer merge and the resolver *)

Lemma filter_name_unique (members_df : list Members.row) (nm : string) :
  NoDup (Members.Name <$> members_df) →
  (length (filter (λ r, Members.Name r = nm) members_df) ≤ 1)%nat.
Proof.
  induction members_df as [|r l IH]; intros Hnd; [simpl; lia|].
  rewrite fmap_cons in Hnd. apply NoDup_cons in Hnd as [Hr Hnd].
  destruct (decide (Members.Name r = nm)) as [E|E].
  - rewrite filter_cons_True by done.
    assert (filter (λ r, Members.Name r = nm) l = []) as ->; [|simpl; lia].
    destruct (filter (λ r, Members.Name r = nm) l) as [|x xs] eqn:Hf; [done|].
    exfalso. apply Hr.
    assert (x ∈ filter (λ r, Members.Name r = nm) l) as Hx by (rewrite Hf; left).
    apply list_elem_of_filter in Hx as [Hn Hx].
    rewrite E, <- Hn. by apply list_elem_of_fmap_2.
  - rewrite filter_cons_False by done. by apply IH.
Qed.

Lemma merge_payer_spec members_df row :
  length (merge_payer members_df row) =
    Nat.max 1 (length (filter (λ r, Members.Name r = Paid_by row) members_df)) ∧
  (∀ row', row' ∈ merge_payer members_df row →
     row' = set_Payer_ID row (Payer_ID row') ∧
     (Payer_ID row' = None ↔ ∀ r, r ∈ members_df → Members.Name r ≠ Paid_by row) ∧
     (∀ p, Payer_ID row' = Some p →
        ∃ r, r ∈ members_df ∧ Members.Name r = Paid_by row ∧ Members.ID r = p)) ∧
  (NoDup (Members.Name <$> members_df) → length (merge_payer members_df row) = 1%nat).
Proof.
  unfold merge_payer.
  destruct (filter (λ r, Members.Name r = Paid_by row) members_df) as [|x xs] eqn:Hf.
  - split; [done|]. split; [|done].
    intros row' ->%list_elem_of_singleton. split; [done|]. split; [|discriminate].
    split; [|done]. intros _ r Hr Hn.
    assert (r ∈ filter (λ r, Members.Name r = Paid_by row) members_df) as Hin
      by (by apply list_elem_of_filter).
    rewrite Hf in Hin. inversion Hin.
  - split; [by rewrite length_fmap|]. split.
    + intros row' (r & -> & Hr)%list_elem_of_fmap. simpl.
      rewrite <- Hf in Hr. apply list_elem_of_filter in Hr as [Hn Hr].
      split; [done|]. split.
      * split; [discriminate|]. intros Hnone. by destruct (Hnone r Hr).
      * intros p [= <-]. eauto.
    + intros Hnd. pose proof (filter_name_unique members_df (Paid_by row) Hnd) as Hle.
      rewrite Hf in Hle. rewrite length_fmap. simpl in *. lia.
Qed.

(** The merge on the payer's name turns one expense row into as many rows
    as the Members sheet has rows with that name, and into one row when it
    has none; each of them is the expense row with the ID of one of those
    members as payer id, or with no payer id when there is none.  With
    pairwise distinct member names every expense row stays one row. *)
Theorem merge_payer_rows members_df row :
  length (merge_payer members_df row) =
    Nat.max 1 (length (filter (λ r, Members.Name r = Paid_by row) members_df)) ∧
  (∀ row', row' ∈ merge_payer members_df row →
     row' = set_Payer_ID row (Payer_ID row') ∧
     (Payer_ID row' = None ↔ ∀ r, r ∈ members_df → Members.Name r ≠ Paid_by row) ∧
     (∀ p, Payer_ID row' = Some p →
        ∃ r, r ∈ members_df ∧ Members.Name r = Paid_by row ∧ Members.ID r = p)) ∧
  (NoDup (Members.Name <$> members_df) → length (merge_payer members_df row) = 1%nat).
Proof. apply merge_payer_spec. Qed.

Lemma merge_payer_rows_witness :
  length (merge_payer Sample.members_df (read_row Sample.cols Sample.thirds)) = 1%nat.
Proof.
  apply (merge_payer_rows Sample.members_df (read_row Sample.cols Sample.thirds)).
  apply (bool_decide_unpack _). vm_compute. exact I.
Defined.

Lemma member_of_col_ok members_df col m :
  member_of_col members_df col = Ok m →
  name m = drop1 col ∧ ∃ r, r ∈ members_df ∧ Members.Name r = name m ∧ Members.ID r = id m.
Proof.
  unfold member_of_col.
  destruct (filter (λ r, Members.Name r = drop1 col) members_df) as [|r l] eqn:Hf;
    [discriminate|].
  intros [= <-]. split; [done|]. exists r.
  assert (r ∈ filter (λ r, Members.Name r = drop1 col) members_df) as Hin
    by (rewrite Hf; left).
  by apply list_elem_of_filter in Hin as [? ?].
Qed.

Lemma member_of_col_raise members_df col e :
  member_of_col members_df col = Raise e →
  e = IndexError ∧ ∀ r, r ∈ members_df → Members.Name r ≠ drop1 col.
Proof.
  unfold member_of_col.
  destruct (filter (λ r, Members.Name r = drop1 col) members_df) as [|r l] eqn:Hf;
    [|discriminate].
  intros [= <-]. split; [done|]. intros r Hr Hn.
  assert (r ∈ filter (λ r, Members.Name r = drop1 col) members_df) as Hin
    by (by apply list_elem_of_filter).
  rewrite Hf in Hin. inversion Hin.
Qed.

Lemma traverse_raise {A B : Type} (f : A → result B) l e :
  traverse f l = Raise e → ∃ x, x ∈ l ∧ f x = Raise e.
Proof.
  induction l as [|x l IH]; simpl; [discriminate|].
  destruct (f x) as [y|e'] eqn:E; simpl.
  - destruct (traverse f l) as [ys|e''] eqn:E'; simpl; [discriminate|].
    intros [= <-]. destruct (IH eq_refl) as (z & Hz & Hfz). exists z. split; [by right | done].
  - intros [= <-]. exists x. split; [left | done].
Qed.

(** The resolver succeeds exactly when every member column is named after
    some row of the Members sheet.  It then returns one member per column, in
    the order of the columns, each with the column's name and the ID of a row
    that carries this name; when it raises, the exception is an IndexError. *)
Theorem resolve_members_succeeds members_df cols :
  ((∃ mic, resolve_members members_df cols = Ok mic) ↔
     ∀ c, c ∈ cols → ∃ r, r ∈ members_df ∧ Members.Name r = drop1 c) ∧
  (∀ mic, resolve_members members_df cols = Ok mic →
     length mic = length cols ∧ name <$> mic = drop1 <$> cols ∧
     ∀ m, m ∈ mic → ∃ r, r ∈ members_df ∧ Members.Name r = name m ∧ Members.ID r = id m) ∧
  (∀ e, resolve_members members_df cols = Raise e → e = IndexError).
Proof.
  unfold resolve_members. split; [|split].
  - split.
    + intros [mic H] c Hc. apply traverse_Forall2 in H.
      apply list_elem_of_lookup_1 in Hc as [i Hi].
      destruct (Forall2_lookup_l _ _ _ _ _ H Hi) as (m & _ & Hm).
      destruct (member_of_col_ok _ _ _ Hm) as (Hn & r & Hr & Hrn & _).
      exists r. split; [done | congruence].
    + intros Hall. destruct (traverse (member_of_col members_df) cols) as [mic|e] eqn:E;
        [eauto|].
      exfalso. apply traverse_raise in E as (c & Hc & Hraise).
      apply member_of_col_raise in Hraise as [_ Hnone].
      destruct (Hall c Hc) as (r & Hr & Hn). by apply (Hnone r).
  - intros mic H. split; [|split].
    + apply traverse_Forall2 in H. symmetry. by eapply Forall2_length.
    + by apply (resolve_members_names members_df).
    + intros m Hm. apply traverse_Forall2 in H.
      apply list_elem_of_lookup_1 in Hm as [i Hi].
      destruct (Forall2_lookup_r _ _ _ _ _ H Hi) as (c & _ & Hc).
      by destruct (member_of_col_ok _ _ _ Hc) as [_ ?].
  - intros e H. apply traverse_raise in H as (c & _ & Hc).
    by apply member_of_col_raise in Hc as [? _].
Qed.

Lemma resolve_members_succeeds_witness :
  ∃ mic, resolve_members Sample.members_df Sample.cols = Ok mic.
Proof.
  apply (proj1 (resolve_members_succeeds Sample.members_df Sample.cols)).
  intros c Hc. unfold Sample.cols in Hc.
  apply elem_of_cons in Hc as [-> | Hc];
    [exists {| Members.Name := "Alice"; Members.ID := 11 |}; split; [left | reflexivity]|].
  apply elem_of_cons in Hc as [-> | Hc];
    [exists {| Members.Name := "Bob"; Members.ID := 12 |};
     split; [right; left | reflexivity]|].
  apply elem_of_cons in Hc as [-> | Hc];
    [exists {| Members.Name := "Carol"; Members.ID := 13 |};
     split; [right; right; left | reflexivity]|].
  inversion Hc.
Defined.

(** ** What the frame keeps of the sheet *)

Lemma AssignRoundingDiff_same_sheet cols rnd row row' :
  AssignRoundingDiff cols rnd row = Ok row' → row' = set_computed row (computed row').
Proof.
  intros H.
  assert (has_owed_columns cols row) as Hcols.
  { unfold AssignRoundingDiff in H. inv_bind H. by eapply share_owed_columns_has. }
  rewrite AssignRoundingDiff_eq in H by done.
  destruct (within_tolerance (rounding_diff cols row)).
  - inv_bind H. by injection H as <-.
  - injection H as <-. by rewrite set_computed_id.
Qed.

Lemma bind_singletons {A B : Type} (f : A → list B) (l : list A) :
  (∀ x, x ∈ l → length (f x) = 1%nat) →
  Forall2 (λ x y, y ∈ f x) l (l ≫= f).
Proof.
  induction l as [|x l IH]; intros Hone; [constructor|].
  rewrite bind_cons.
  destruct (f x) as [|y [|z ys]] eqn:E;
    try (specialize (Hone x ltac:(left)); rewrite E in Hone; simpl in Hone; lia).
  simpl. constructor.
  - rewrite E. left.
  - apply IH. intros x' Hx'. apply Hone. by right.
Qed.

Lemma Forall2_chain {A B C : Type} (P : A → B → Prop) (Q : B → C → Prop) l k m :
  Forall2 P l k → Forall2 Q k m → Forall2 (λ x z, ∃ y, P x y ∧ Q y z) l m.
Proof.
  intros H. revert m. induction H as [|x y l k Hxy _ IH]; intros m Hm.
  - inversion Hm. constructor.
  - inversion Hm as [|? z ? m' Hyz Hrest]; subst. constructor; eauto.
Qed.

(** With pairwise distinct names in the Members sheet, the frame handed to
    the validator has one row per row of the Expenses sheet, in the same
    order; each carries the sheet's columns unchanged (ID, Description, Date,
    Amount, Currency, Paid by, Split type, the member cells), the parsed All
    equal and the Total Shares, and as payer id the ID of the member named by
    Paid by, or none when no member has that name. *)
Theorem frame_keeps_sheet draws the_group columns sheet members_df mic rows :
  NoDup (Members.Name <$> members_df) →
  compute_frame draws the_group columns sheet members_df = Ok (mic, rows) →
  Forall2 (λ s row,
             set_computed (set_Payer_ID row None) ∅ = read_row (cols_of columns) s ∧
             (∀ r, r ∈ members_df → Members.Name r = Sheet.Paid_by s →
                Payer_ID row = Some (Members.ID r)) ∧
             ((∀ r, r ∈ members_df → Members.Name r ≠ Sheet.Paid_by s) →
                Payer_ID row = None))
          sheet rows.
Proof.
  intros Hnd H. unfold compute_frame in H.
  inv_bind H. inv_bind H. inv_bind H. injection H as <- <-.
  apply traverse_Forall2 in Ha0. apply apply_rows_Forall2 in Ha1.
  set (cols := cols_of columns) in *.
  assert (Forall2 (λ s row1, row1 ∈ merge_payer members_df (read_row cols s)) sheet
            ((read_row cols <$> sheet) ≫= merge_payer members_df)) as Hmerge.
  { pose proof (bind_singletons (merge_payer members_df) (read_row cols <$> sheet)) as Hb.
    apply Forall2_fmap_l in Hb; [exact Hb|].
    intros x _. by apply merge_payer_spec. }
  pose proof (Forall2_chain _ _ _ _ _ Hmerge (Forall2_chain _ _ _ _ _ Ha0 Ha1)) as Hall.
  eapply Forall2_impl; [exact Hall|]. clear Hall Hmerge Ha0 Ha1.
  simpl. intros s row' (row1 & Hrow1 & row0 & Hshares & rnd & Hround).
  destruct (add_shares_lookup _ _ _ _ _ Hshares) as [Hsame0 _].
  apply AssignRoundingDiff_same_sheet in Hround.
  destruct (merge_payer_spec members_df (read_row cols s)) as (_ & Hrows & Hone).
  destruct (Hrows row1 Hrow1) as (Hr1 & Hnone & Hsome).
  assert (Payer_ID row' = Payer_ID row1) as Hp.
  { rewrite Hround, Hsame0. done. }
  split; [|split].
  - rewrite Hround, Hsame0, Hr1. done.
  - intros r Hr Hn. rewrite Hp.
    destruct (Payer_ID row1) as [p|] eqn:E.
    + destruct (Hsome p eq_refl) as (r' & Hr' & Hn' & <-). do 2 f_equal.
      simpl in Hn'. rewrite <- Hn in Hn'.
      apply list_elem_of_lookup_1 in Hr as [i Hi], Hr' as [j Hj].
      assert (i = j) as ->; [|congruence].
      apply (NoDup_lookup _ i j (Members.Name r) Hnd);
        rewrite list_lookup_fmap; [rewrite Hi | rewrite Hj]; simpl; congruence.
    + exfalso. by apply (proj1 Hnone eq_refl r Hr).
  - intros Hno. rewrite Hp. by apply Hnone.
Qed.

Lemma frame_keeps_sheet_witness :
  ∃ mic rows,
    compute_frame (λ _, 0%nat) Sample.the_group Sample.columns
      [Sample.thirds; Sample.stranger] Sample.members_df = Ok (mic, rows) ∧
    Amount <$> rows = [100; 30] ∧ Payer_ID <$> rows = [Some 12%Z; None].
Proof.
  destruct (compute_frame (λ _, 0%nat) Sample.the_group Sample.columns
              [Sample.thirds; Sample.stranger] Sample.members_df)
    as [[mic rows]|e] eqn:E; [| exfalso; vm_compute in E; discriminate E].
  exists mic, rows. split; [reflexivity|].
  assert (NoDup (Members.Name <$> Sample.members_df)) as Hnd
    by (apply (bool_decide_unpack _); vm_compute; exact I).
  pose proof (frame_keeps_sheet _ _ _ _ _ _ _ Hnd E) as H.
  apply Forall2_cons_inv_l in H as (r1 & rest & (Hs1 & Hp1 & _) & H & ->).
  apply Forall2_cons_inv_l in H as (r2 & rest' & (Hs2 & _ & Hn2) & H & ->).
  apply Forall2_nil_inv_l in H as ->.
  split.
  - simpl. f_equal; [|f_equal].
    + change (Amount r1) with (Amount (set_computed (set_Payer_ID r1 None) ∅)).
      by rewrite Hs1.
    + change (Amount r2) with (Amount (set_computed (set_Payer_ID r2 None) ∅)).
      by rewrite Hs2.
  - simpl. f_equal; [|f_equal].
    + apply (Hp1 {| Members.Name := "Bob"; Members.ID := 12 |}); [right; left | reflexivity].
    + apply Hn2. intros r Hr. unfold Sample.members_df in Hr.
      repeat (apply elem_of_cons in Hr as [-> | Hr]; [discriminate|]). inversion Hr.
Defined.

(** ** Pushing a stored upload *)

Lemma dict_set_keys {V : Type} (k : Z) (v : V) d :
  fst <$> dict_set k v d = if decide (k ∈ fst <$> d) then fst <$> d else (fst <$> d) ++ [k].
Proof.
  induction d as [|[k' v'] d IH].
  - destruct (decide (k ∈ fst <$> ([] : list (Z * V)))) as [H|_]; [inversion H | done].
  - cbn [dict_set]. rewrite fmap_cons. cbn [fst].
    destruct (decide (k' = k)) as [->|Hne].
    + rewrite fmap_cons. cbn [fst]. rewrite decide_True; [done | left].
    + rewrite fmap_cons, IH. cbn [fst].
      destruct (decide (k ∈ fst <$> d)) as [Hin|Hnin].
      * rewrite decide_True; [done | by right].
      * rewrite decide_False; [done|].
        intros [?|?]%elem_of_cons; [by apply Hne | by apply Hnin].
Qed.

Lemma dict_set_NoDup {V : Type} (k : Z) (v : V) d :
  NoDup (fst <$> d) → NoDup (fst <$> dict_set k v d).
Proof.
  intros Hnd. rewrite dict_set_keys. case_decide; [done|].
  apply NoDup_app. split; [done|]. split; [|apply NoDup_singleton].
  intros x Hx ->%list_elem_of_singleton. done.
Qed.

Lemma dict_set_elem_of {V : Type} (k : Z) (v : V) d k' v' :
  NoDup (fst <$> d) →
  (k', v') ∈ dict_set k v d ↔ (k' = k ∧ v' = v) ∨ (k' ≠ k ∧ (k', v') ∈ d).
Proof.
  induction d as [|[k0 v0] d IH]; intros Hnd; simpl.
  - rewrite list_elem_of_singleton. split.
    + intros [= -> ->]. by left.
    + intros [[-> ->] | [_ H]]; [done | inversion H].
  - rewrite fmap_cons in Hnd. apply NoDup_cons in Hnd as [Hk0 Hnd]. simpl in Hk0.
    destruct (decide (k0 = k)) as [->|Hne].
    + rewrite !elem_of_cons. split.
      * intros [[= -> ->] | Hin]; [by left|]. right. split; [|by right].
        intros ->. apply Hk0. by apply (list_elem_of_fmap_2 fst) in Hin.
      * intros [[-> ->] | [Hne [[= -> ->] | Hin]]]; [by left | done | by right].
    + rewrite !elem_of_cons, (IH Hnd). split.
      * intros [[= -> ->] | [[-> ->] | [Hne' Hin]]].
        -- right. split; [done | by left].
        -- by left.
        -- right. split; [done | by right].
      * intros [[-> ->] | [Hne' [[= -> ->] | Hin]]].
        -- right. by left.
        -- by left.
        -- right. right. done.
Qed.

(** The dictionary of expenses to push holds one entry per distinct ID of
    the stored expenses, and the entry of an ID is built from the last stored
    expense with that ID: earlier expenses with the same ID are not pushed. *)
Theorem expenses_to_push_last_wins current_user_id group_sw_id expenses :
  NoDup (fst <$> expenses_to_push current_user_id group_sw_id expenses) ∧
  (∀ k v, (k, v) ∈ expenses_to_push current_user_id group_sw_id expenses ↔
          ∃ e, last (filter (λ e, Db.within_upload_id e = k) expenses) = Some e ∧
               v = expense_to_push current_user_id group_sw_id e) ∧
  (length (expenses_to_push current_user_id group_sw_id expenses) ≤ length expenses)%nat.
Proof.
  unfold expenses_to_push.
  induction expenses as [|x l IH] using rev_ind.
  - split; [constructor|]. split; [|done]. intros k v. split.
    + intros H. inversion H.
    + intros (e & He & _). discriminate He.
  - destruct IH as (Hnd & Hin & Hlen). rewrite foldl_app. simpl.
    set (d := foldl _ [] l) in *.
    split; [by apply dict_set_NoDup|]. split.
    + intros k v. rewrite dict_set_elem_of by done. rewrite filter_app.
      destruct (decide (Db.within_upload_id x = k)) as [Hk|Hk].
      * rewrite (filter_cons_True _ x) by done. rewrite filter_nil, last_snoc.
        split.
        -- intros [[_ ->] | [Hne _]]; [by exists x | congruence].
        -- intros (e & [= <-] & ->). by left.
      * rewrite (filter_cons_False _ x) by done. rewrite filter_nil, app_nil_r, <- Hin.
        split; [intros [[-> _] | [_ ?]]; [done | done] | intros ?; right; split; [congruence | done]].
    + rewrite length_app. simpl.
      assert (length (dict_set (Db.within_upload_id x)
                        (expense_to_push current_user_id group_sw_id x) d)
              = length (fst <$> dict_set (Db.within_upload_id x)
                          (expense_to_push current_user_id group_sw_id x) d)) as ->
        by (by rewrite length_fmap).
      rewrite dict_set_keys. case_decide; rewrite ?length_app, length_fmap; simpl; lia.
Qed.

Section PushProofs.

Variable service : Type.
Variable createExpense : service → Sw.Expense → service * (Z + list string).

(** The list of failed expenses names pushed IDs only, in the order of the
    dictionary; it is empty when the service accepts every expense, and it
    names every pushed ID when the service refuses every expense. *)
Theorem upload_all_failures s items :
  failed_id <$> (upload_all service createExpense s items).2
    `sublist_of` (λ p, str_Z p.1) <$> items ∧
  ((∀ s x, ∃ n, (createExpense s x).2 = inl n) →
     (upload_all service createExpense s items).2 = []) ∧
  ((∀ s x, ∃ errors_list, (createExpense s x).2 = inr errors_list) →
     failed_id <$> (upload_all service createExpense s items).2
       = (λ p, str_Z p.1) <$> items).
Proof.
  revert s. induction items as [|[k x] items IH]; intros s; simpl.
  - split; [constructor | done].
  - destruct (createExpense s x) as [s1 answer] eqn:E.
    destruct (IH s1) as (Hsub & Hok & Hbad).
    destruct (upload_all service createExpense s1 items) as [s2 failed] eqn:E2.
    simpl in *. split; [|split].
    + destruct answer; simpl; [by apply sublist_cons | by apply sublist_skip].
    + intros Hall. destruct (Hall s x) as [n Hn]. rewrite E in Hn. simpl in Hn.
      subst answer. simpl. by apply Hok.
    + intros Hall. destruct (Hall s x) as [errs He]. rewrite E in He. simpl in He.
      subst answer. simpl. f_equal. by apply Hbad.
Qed.

End PushProofs.

Lemma upload_all_failures_witness :
  failed_id <$> (push_expenses nat (λ calls _, (S calls, inr ["refused"])) 0%nat 11 7
                   [Demo.dinner; Demo.taxi; Demo.lunch]).2 = ["1"; "2"].
Proof.
  unfold push_expenses.
  rewrite (proj2 (proj2 (upload_all_failures nat (λ calls _, (S calls, inr ["refused"]))
                           0%nat _))).
  - reflexivity.
  - intros s x. by exists ["refused"].
Defined.

(** ** The template of a group *)







(** The enumerated names of different members can still coincide: a member
    called "Javier 1" beside two members called "Javier". *)
Lemma member_names_enum_may_collide :
  member_names_enum ["Javier"; "Javier"; "Javier 1"] = ["Javier 1"; "Javier 2"; "Javier 1"].
Proof. reflexivity. Qed.

Lemma cols_of_template group_members :
  cols_of (template_headers group_members) =
    (λ n, "_" +:+ n) <$> member_names_enum (member_full_name <$> group_members).
Proof.
  unfold cols_of, template_headers. rewrite filter_app.
  assert (filter (λ c, is_member_col c = true) expense_headers_fixed = []) as ->
    by reflexivity.
  simpl. induction (member_names_enum (member_full_name <$> group_members)) as [|n l IH];
    [done|].
  rewrite fmap_cons, filter_cons_True by reflexivity. by rewrite IH.
Qed.

Lemma template_members_names group_members :
  Members.Name <$> template_members group_members
    = member_names_enum (member_full_name <$> group_members).
Proof.
  unfold template_members. rewrite <- list_fmap_compose.
  set (enum := member_names_enum (member_full_name <$> group_members)).
  assert (length group_members = length enum) as Hlen.
  { unfold enum, member_names_enum. by rewrite length_imap, length_fmap. }
  clearbody enum. revert enum Hlen.
  induction group_members as [|m l IH]; intros [|n enum] Hlen; simpl in *; try done.
  f_equal. apply IH. lia.
Qed.

(** Against the rows written to the Members sheet, the resolver finds a row
    for every member column of the header row. *)
Lemma template_resolves group_members :
  cols_of (template_headers group_members) =
    (λ n, "_" +:+ n) <$> member_names_enum (member_full_name <$> group_members) ∧
  ∃ mic, resolve_members (template_members group_members)
           (cols_of (template_headers group_members)) = Ok mic ∧
         name <$> mic = member_names_enum (member_full_name <$> group_members).
Proof.
  split; [apply cols_of_template|].
  destruct (resolve_members (template_members group_members)
              (cols_of (template_headers group_members))) as [mic|e] eqn:E.
  - exists mic. split; [done|].
    rewrite (resolve_members_names _ _ _ E), cols_of_template, <- list_fmap_compose.
    apply list_fmap_id.
  - exfalso. unfold resolve_members in E.
    apply traverse_raise in E as (c & Hc & Hraise).
    apply member_of_col_raise in Hraise as [_ Hnone].
    rewrite cols_of_template in Hc. apply list_elem_of_fmap in Hc as (n & -> & Hn).
    rewrite <- template_members_names in Hn.
    apply list_elem_of_fmap in Hn as (r & -> & Hr). by apply (Hnone r).
Qed.

Lemma template_headers_NoDup group_members :
  NoDup (member_names_enum (member_full_name <$> group_members)) →
  NoDup (template_headers group_members).
Proof.
  intros Hnd. unfold template_headers. apply NoDup_app. split; [|split].
  - apply (bool_decide_unpack _). vm_compute. exact I.
  - intros h Hfixed (n & -> & _)%list_elem_of_fmap.
    assert (is_member_col ("_" +:+ n) = false) as Hno; [|discriminate Hno].
    unfold expense_headers_fixed in Hfixed.
    repeat (apply elem_of_cons in Hfixed as [Hh | Hfixed]; [by rewrite Hh|]).
    inversion Hfixed.
  - assert (Inj (=) (=) (λ n : string, "_" +:+ n)) as Hinj
      by (intros a b H; by apply String.app_inj in H).
    by apply (NoDup_fmap_2 _).
Qed.

(** The template fits the upload.  When the enumerated names are pairwise
    distinct, the header row of the template has no repeated label, its
    member columns are the enumerated names with an underscore in front, in
    the order of the members, and against the rows written to the Members
    sheet the resolver raises nothing and binds each member column to the ID
    of the member the column was written for. *)
Theorem template_resolves_ids group_members :
  NoDup (member_names_enum (member_full_name <$> group_members)) →
  NoDup (template_headers group_members) ∧
  cols_of (template_headers group_members) =
    (λ n, "_" +:+ n) <$> member_names_enum (member_full_name <$> group_members) ∧
  resolve_members (template_members group_members)
    (cols_of (template_headers group_members))
  = Ok ((λ p, {| name := p.2; id := member_id p.1 |})
          <$> zip group_members (member_names_enum (member_full_name <$> group_members))).
Proof.
  intros Hnd. split; [by apply template_headers_NoDup|].
  split; [apply cols_of_template|].
  destruct (template_resolves group_members) as (Hcols & mic & Hres & Hnames).
  rewrite Hres. f_equal.
  pose proof (template_members_names group_members) as Hrows.
  set (enum := member_names_enum (member_full_name <$> group_members)) in *.
  assert (length group_members = length enum) as Hlen.
  { unfold enum, member_names_enum. by rewrite length_imap, length_fmap. }
  apply list_eq. intros i.
  unfold resolve_members in Hres. apply traverse_Forall2 in Hres.
  rewrite Hcols in Hres. rewrite list_lookup_fmap.
  destruct (zip group_members enum !! i) as [[m n]|] eqn:Hz; simpl.
  - apply lookup_zip_with_Some in Hz as (m' & n' & [= <- <-] & Hm & Hn).
    destruct (Forall2_lookup_l _ _ _ i ("_" +:+ n) Hres) as (x & Hx & Hmc).
    { by rewrite list_lookup_fmap, Hn. }
    rewrite Hx. f_equal.
    destruct (member_of_col_ok _ _ _ Hmc) as (Hxn & r & Hr & Hrn & Hrid).
    simpl in Hxn. destruct x as [xn xid]. simpl in *. subst xn. f_equal.
    apply list_elem_of_lookup_1 in Hr as [j Hj].
    assert (j = i) as ->.
    { apply (NoDup_lookup enum j i n Hnd); [|done].
      rewrite <- Hrows, list_lookup_fmap, Hj. simpl. by rewrite Hrn. }
    unfold template_members in Hj. fold enum in Hj. rewrite list_lookup_fmap in Hj.
    assert (zip group_members enum !! i = Some (m, n)) as Hzi.
    { apply lookup_zip_with_Some. eauto. }
    rewrite Hzi in Hj. injection Hj as <-. simpl in Hrid. done.
  - apply lookup_ge_None. apply lookup_ge_None in Hz.
    rewrite length_zip in Hz. apply Forall2_length in Hres.
    rewrite length_fmap in Hres. lia.
Qed.

Lemma template_resolves_ids_witness :
  resolve_members (template_members Demo.friends) (cols_of (template_headers Demo.friends))
  = Ok [ {| name := "Javier Lopez 1"; id := 11 |}; {| name := "Ana"; id := 12 |};
         {| name := "Javier Lopez 2"; id := 13 |} ].
Proof.
  destruct (template_resolves_ids Demo.friends) as (_ & _ & ->).
  - apply (bool_decide_unpack _). vm_compute. exact I.
  - reflexivity.
Defined.

(** ** An equal split from the sheet to the corrected row *)







(** With more listed members the shares can stay apart from the Amount:
    100.00 split equally among seven gives seven shares of 14.29, three cents
    too many, which the correction leaves alone. *)
Lemma equal_split_among_seven :
  round2 (100 / 7) == 14.29 ∧
  within_tolerance (7 * round2 (100 / 7) - 100) = false.
Proof. split; reflexivity. Qed.
